(** * samples/main.c: two scaling functions and the entry point

    A shallow embedding of the sample program

<<
    static int local_f(int a)  { return a * 3; }
    extern int global_f(int a) { return a * 6; }
    int main() { int a, b; a = 5; b = 7;
                 b = local_f(a); a = global_f(b); return a + b; }
>>

    The C type [int] is modelled by [Z] together with its range: the width
    of [int] is a parameter [bits] of the development (the language asks
    for at least 16), and what a signed overflow does is a second parameter
    (undefined, as the language has it, or two's-complement wrap-around).
    Every signed operation that is evaluated is recorded, so that
    statements about "the operations the program performs" can be made. *)

From Stdlib Require Import ZArith List Bool Lia.
Import ListNotations.
Local Open Scope Z_scope.

(** ** Signed arithmetic of the C abstract machine *)

(** What an implementation does when a signed operation leaves the range of
    [int]. *)
Inductive overflow : Type :=
| Undefined   (* ISO C: the behaviour is undefined *)
| Wraps.      (* two's complement wrap-around, as with -fwrapv *)

(** The two arithmetic operators the program uses. *)
Inductive binop : Type := Mul | Add.

(** One evaluated signed operation, with its operands. *)
Inductive event : Type := Arith (op : binop) (x y : Z).

(** The mathematical value of an operation, before it is fitted in [int]. *)
Definition exact (op : binop) (x y : Z) : Z :=
  match op with
  | Mul => x * y
  | Add => x + y
  end.

Definition exact_of (e : event) : Z :=
  match e with Arith op x y => exact op x y end.

(** The result of running a piece of the program: a value together with
    the signed operations evaluated on the way, or undefined behaviour. *)
Inductive outcome (A : Type) : Type :=
| Returns (v : A) (evs : list event)
| UB.
Arguments Returns {A} v evs.
Arguments UB {A}.

Definition ret {A : Type} (v : A) : outcome A := Returns v [].

Definition bind {A B : Type} (m : outcome A) (k : A -> outcome B) : outcome B :=
  match m with
  | UB => UB
  | Returns v evs =>
      match k v with
      | UB => UB
      | Returns w evs' => Returns w (evs ++ evs')
      end
  end.

Notation "x <- m ;; k" := (bind m (fun x => k))
  (at level 61, m at next level, right associativity).

(** The value of an outcome, forgetting the recorded operations. *)
Definition value {A : Type} (m : outcome A) : option A :=
  match m with
  | Returns v _ => Some v
  | UB => None
  end.

(** The recorded operations of an outcome. *)
Definition events {A : Type} (m : outcome A) : list event :=
  match m with
  | Returns _ evs => evs
  | UB => []
  end.

(** Reading an object: an automatic variable that was never assigned holds
    an indeterminate value, and reading it is undefined. *)
Definition load (slot : option Z) : outcome Z :=
  match slot with
  | Some v => ret v
  | None => UB
  end.

Section Program.

(** The width of [int] in bits and the treatment of signed overflow. *)
Variable bits : Z.
Variable policy : overflow.

Definition INT_MIN : Z := - 2 ^ (bits - 1).
Definition INT_MAX : Z := 2 ^ (bits - 1) - 1.

Definition in_range (z : Z) : bool := (INT_MIN <=? z) && (z <=? INT_MAX).

(** Reduction modulo [2 ^ bits] into the signed range. *)
Definition wrap (z : Z) : Z := (z - INT_MIN) mod 2 ^ bits + INT_MIN.

(** [x op y] on operands of type [int]. *)
Definition int_arith (op : binop) (x y : Z) : outcome Z :=
  let r := exact op x y in
  if in_range r then Returns r [Arith op x y]
  else match policy with
       | Undefined => UB
       | Wraps => Returns (wrap r) [Arith op x y]
       end.

(** An evaluated operation stayed within [int]. *)
Definition no_overflow (e : event) : bool := in_range (exact_of e).

(** ** The program *)

(** [static int local_f(int a) { return a * 3; }] *)
Definition local_f (a : Z) : outcome Z := int_arith Mul a 3.

(** [extern int global_f(int a) { return a * 6; }] *)
Definition global_f (a : Z) : outcome Z := int_arith Mul a 6.

(** The automatic variables [int a, b;] of [main]; [None] is a variable
    that has not been assigned yet. *)
Record frame : Type := { a : option Z; b : option Z }.

Definition set_a (fr : frame) (v : Z) : frame := {| a := Some v; b := b fr |}.
Definition set_b (fr : frame) (v : Z) : frame := {| a := a fr; b := Some v |}.

(** The statements of [main], run from the frame [fr]. *)
Definition main_body (fr : frame) : outcome Z :=
  (* a = 5; *)
  let fr := set_a fr 5 in
  (* b = 7; *)
  let fr := set_b fr 7 in
  (* b = local_f(a); *)
  x <- load (a fr) ;;
  r <- local_f x ;;
  let fr := set_b fr r in
  (* a = global_f(b); *)
  y <- load (b fr) ;;
  r <- global_f y ;;
  let fr := set_a fr r in
  (* return a + b; *)
  x <- load (a fr) ;;
  y <- load (b fr) ;;
  int_arith Add x y.

(** [int main() { int a, b; ... }]: both variables start unassigned. *)
Definition main : outcome Z := main_body {| a := None; b := None |}.

(** [main] with the constant of its second statement, [b = 7;], replaced
    by [b0]; everything else is as in [main_body]. *)
Definition main_init_b (b0 : Z) (fr : frame) : outcome Z :=
  let fr := set_a fr 5 in
  let fr := set_b fr b0 in
  x <- load (a fr) ;;
  r <- local_f x ;;
  let fr := set_b fr r in
  y <- load (b fr) ;;
  r <- global_f y ;;
  let fr := set_a fr r in
  x <- load (a fr) ;;
  y <- load (b fr) ;;
  int_arith Add x y.

End Program.

(** Running the body of [main]: the assignments to the frame and the reads
    of assigned variables are executed in place. *)
Ltac run_frame := cbn [set_a set_b a b load].

(** ** Concrete runs *)

Example main_32 :
  main 32 Undefined = Returns 105 [Arith Mul 5 3; Arith Mul 15 6; Arith Add 90 15].
Proof. reflexivity. Qed.

Example main_16_wraps :
  main 16 Wraps = Returns 105 [Arith Mul 5 3; Arith Mul 15 6; Arith Add 90 15].
Proof. reflexivity. Qed.

Example local_f_overflow_32 :
  local_f 32 Undefined 715827883 = UB /\
  local_f 32 Wraps 715827883 = Returns (-2147483647) [Arith Mul 715827883 3].
Proof. split; reflexivity. Qed.

(** ** The outcome monad *)

Lemma bind_ret_l {A B : Type} (v : A) (k : A -> outcome B) :
  bind (ret v) k = k v.
Proof. unfold ret, bind. destruct (k v); reflexivity. Qed.

Lemma bind_ret_r {A : Type} (m : outcome A) : bind m ret = m.
Proof.
  destruct m as [v evs|]; simpl; [|reflexivity].
  now rewrite app_nil_r.
Qed.

Lemma bind_assoc {A B C : Type}
  (m : outcome A) (k : A -> outcome B) (h : B -> outcome C) :
  bind (bind m k) h = bind m (fun x => bind (k x) h).
Proof.
  destruct m as [v evs|]; simpl; [|reflexivity].
  destruct (k v) as [w evs'|]; simpl; [|reflexivity].
  destruct (h w) as [u evs''|]; [|reflexivity].
  now rewrite app_assoc.
Qed.

Lemma value_bind {A B : Type} (m : outcome A) (k : A -> outcome B) :
  value (bind m k) =
  match value m with
  | Some v => value (k v)
  | None => None
  end.
Proof.
  destruct m as [v evs|]; simpl; [|reflexivity].
  destruct (k v); reflexivity.
Qed.

(** ** The range of [int] *)

Section Range.

Variable bits : Z.
Hypothesis int_width : 16 <= bits.

Lemma pow_bits_double : 2 ^ bits = 2 * 2 ^ (bits - 1).
Proof.
  replace bits with (Z.succ (bits - 1)) at 1 by lia.
  apply Z.pow_succ_r. lia.
Qed.

Lemma half_range_large : 32768 <= 2 ^ (bits - 1).
Proof.
  change 32768 with (2 ^ 15).
  apply Z.pow_le_mono_r; lia.
Qed.

Lemma in_range_bounds (z : Z) :
  in_range bits z = true <-> - 2 ^ (bits - 1) <= z <= 2 ^ (bits - 1) - 1.
Proof.
  unfold in_range, INT_MIN, INT_MAX.
  rewrite andb_true_iff, !Z.leb_le. reflexivity.
Qed.

Lemma in_range_int16 (z : Z) :
  -32768 <= z <= 32767 -> in_range bits z = true.
Proof.
  intros Hz. apply in_range_bounds.
  pose proof half_range_large. lia.
Qed.

Lemma wrap_in_range (z : Z) : in_range bits (wrap bits z) = true.
Proof.
  apply in_range_bounds. unfold wrap, INT_MIN.
  pose proof half_range_large as Hh.
  pose proof pow_bits_double as Hd.
  assert (Hm : 0 <= (z - - 2 ^ (bits - 1)) mod 2 ^ bits < 2 ^ bits)
    by (apply Z.mod_pos_bound; lia).
  lia.
Qed.

Lemma wrap_id (z : Z) : in_range bits z = true -> wrap bits z = z.
Proof.
  intros Hz. apply in_range_bounds in Hz. unfold wrap, INT_MIN.
  pose proof pow_bits_double as Hd.
  rewrite Z.mod_small by lia. lia.
Qed.

Lemma wrap_congruent (z : Z) : exists q, wrap bits z = z + q * 2 ^ bits.
Proof.
  unfold wrap.
  pose proof half_range_large as Hh.
  pose proof pow_bits_double as Hd.
  exists (- ((z - INT_MIN bits) / 2 ^ bits)).
  pose proof (Z.div_mod (z - INT_MIN bits) (2 ^ bits)) as Hdm.
  lia.
Qed.

Lemma wrap_shift (z q : Z) : wrap bits (z + q * 2 ^ bits) = wrap bits z.
Proof.
  unfold wrap.
  replace (z + q * 2 ^ bits - INT_MIN bits)
    with (z - INT_MIN bits + q * 2 ^ bits) by lia.
  now rewrite Z_mod_plus_full.
Qed.

Lemma wrap_mul_l (k z : Z) : wrap bits (k * wrap bits z) = wrap bits (k * z).
Proof.
  destruct (wrap_congruent z) as [q ->].
  replace (k * (z + q * 2 ^ bits)) with (k * z + (k * q) * 2 ^ bits) by lia.
  apply wrap_shift.
Qed.

(** Halving a product that fits leaves a product that fits. *)
Lemma in_range_half (z : Z) :
  in_range bits (2 * z) = true -> in_range bits z = true.
Proof.
  rewrite !in_range_bounds.
  pose proof half_range_large. lia.
Qed.

End Range.

(** ** Signed operations *)

Lemma int_arith_fits (bits : Z) (policy : overflow) (op : binop) (x y : Z) :
  in_range bits (exact op x y) = true ->
  int_arith bits policy op x y = Returns (exact op x y) [Arith op x y].
Proof. intros Hr. unfold int_arith. now rewrite Hr. Qed.

Lemma int_arith_overflows (bits : Z) (op : binop) (x y : Z) :
  in_range bits (exact op x y) = false ->
  int_arith bits Undefined op x y = UB /\
  int_arith bits Wraps op x y = Returns (wrap bits (exact op x y)) [Arith op x y].
Proof. intros Hr. unfold int_arith. now rewrite Hr. Qed.

Lemma int_arith_wraps (bits : Z) (op : binop) (x y : Z) :
  16 <= bits ->
  int_arith bits Wraps op x y = Returns (wrap bits (exact op x y)) [Arith op x y].
Proof.
  intros Hb. unfold int_arith.
  destruct (in_range bits (exact op x y)) eqn:Hr; [|reflexivity].
  now rewrite wrap_id.
Qed.

(** Whatever the treatment of overflow, a signed operation that returns
    returns an [int]. *)
Lemma int_arith_in_range
  (bits : Z) (policy : overflow) (op : binop) (x y v : Z) (evs : list event) :
  16 <= bits ->
  int_arith bits policy op x y = Returns v evs ->
  in_range bits v = true.
Proof.
  intros Hb. unfold int_arith.
  destruct (in_range bits (exact op x y)) eqn:Hr.
  - intros [= <- _]. assumption.
  - destruct policy; [discriminate|].
    intros [= <- _]. now apply wrap_in_range.
Qed.

(** The body of [main] does not depend on the frame it starts from, and is
    the chain of its two calls and its addition. *)
Lemma main_body_chain (bits : Z) (policy : overflow) (fr : frame) :
  main_body bits policy fr =
  (x <- local_f bits policy 5 ;;
   y <- global_f bits policy x ;;
   int_arith bits policy Add y x).
Proof.
  unfold main_body. run_frame. rewrite bind_ret_l.
  destruct (local_f bits policy 5) as [x e1|]; [|reflexivity].
  cbn [bind]. run_frame. rewrite bind_ret_l.
  destruct (global_f bits policy x) as [y e2|]; [|reflexivity].
  cbn [bind]. run_frame. now rewrite !bind_ret_l.
Qed.

Lemma local_f_5 (bits : Z) (policy : overflow) :
  16 <= bits -> local_f bits policy 5 = Returns 15 [Arith Mul 5 3].
Proof.
  intros Hb. unfold local_f.
  apply (int_arith_fits bits policy Mul 5 3).
  apply in_range_int16; cbn; lia.
Qed.

Lemma global_f_15 (bits : Z) (policy : overflow) :
  16 <= bits -> global_f bits policy 15 = Returns 90 [Arith Mul 15 6].
Proof.
  intros Hb. unfold global_f.
  apply (int_arith_fits bits policy Mul 15 6).
  apply in_range_int16; cbn; lia.
Qed.

Lemma add_90_15 (bits : Z) (policy : overflow) :
  16 <= bits -> int_arith bits policy Add 90 15 = Returns 105 [Arith Add 90 15].
Proof.
  intros Hb.
  apply (int_arith_fits bits policy Add 90 15).
  apply in_range_int16; cbn; lia.
Qed.

Lemma main_body_runs (bits : Z) (policy : overflow) (fr : frame) :
  16 <= bits ->
  main_body bits policy fr =
  Returns 105 [Arith Mul 5 3; Arith Mul 15 6; Arith Add 90 15].
Proof.
  intros Hb. rewrite main_body_chain.
  rewrite local_f_5 by assumption. cbn [bind].
  rewrite global_f_15 by assumption. cbn [bind].
  rewrite add_90_15 by assumption. reflexivity.
Qed.

(** ** The properties of the specification *)

(** C1. Running the program gives exit code 105: on every implementation
    whose [int] has at least 16 bits, and whatever it does on overflow,
    [main] returns 105, having computed 5*3 = 15, then 15*6 = 90, then
    90+15 = 105, in that order. *)
Theorem main_returns_105 (bits : Z) (policy : overflow) (Hbits : 16 <= bits) :
  main bits policy =
  Returns 105 [Arith Mul 5 3; Arith Mul 15 6; Arith Add 90 15].
Proof. unfold main. now apply main_body_runs. Qed.

Lemma main_returns_105_witness :
  16 <= 32 /\
  main 32 Undefined =
  Returns 105 [Arith Mul 5 3; Arith Mul 15 6; Arith Add 90 15].
Proof. split; [lia | apply (main_returns_105 32 Undefined); lia]. Defined.

(** C2. For every [x] whose triple does not overflow [int], [local_f x]
    returns [3 * x], and evaluates nothing but that one product. *)
Theorem local_f_triples (bits : Z) (policy : overflow) (x : Z)
  (Hfits : in_range bits (3 * x) = true) :
  local_f bits policy x = Returns (3 * x) [Arith Mul x 3].
Proof.
  unfold local_f. rewrite (Z.mul_comm 3 x) in *.
  now apply (int_arith_fits bits policy Mul x 3).
Qed.

Lemma local_f_triples_witness :
  in_range 32 (3 * 715827882) = true /\
  local_f 32 Undefined 715827882 =
  Returns (3 * 715827882) [Arith Mul 715827882 3].
Proof.
  split; [reflexivity | apply (local_f_triples 32 Undefined 715827882); reflexivity].
Defined.

(** C3. For every [x] whose sixfold does not overflow [int], [global_f x]
    returns [6 * x], and evaluates nothing but that one product. *)
Theorem global_f_sixfold (bits : Z) (policy : overflow) (x : Z)
  (Hfits : in_range bits (6 * x) = true) :
  global_f bits policy x = Returns (6 * x) [Arith Mul x 6].
Proof.
  unfold global_f. rewrite (Z.mul_comm 6 x) in *.
  now apply (int_arith_fits bits policy Mul x 6).
Qed.

Lemma global_f_sixfold_witness :
  in_range 32 (6 * (-357913941)) = true /\
  global_f 32 Undefined (-357913941) =
  Returns (6 * (-357913941)) [Arith Mul (-357913941) 6].
Proof.
  split; [reflexivity | apply (global_f_sixfold 32 Undefined (-357913941)); reflexivity].
Defined.

(** C4. [main] is the composition it is specified to be: with [a = 5] and
    [b = 7] assigned, [b] becomes [local_f(a)], then [a] becomes
    [global_f(b)], and [a + b] is returned.  So [main] is [local_f 5]
    followed by [global_f] on its result followed by the sum of the two
    results, and its value is that of [local_f(5) + global_f(local_f(5))]. *)
Theorem main_is_composition (bits : Z) (policy : overflow) :
  main bits policy =
  (l <- local_f bits policy 5 ;;
   g <- global_f bits policy l ;;
   int_arith bits policy Add g l)
  /\
  value (main bits policy) =
  value (l <- local_f bits policy 5 ;;
         l' <- local_f bits policy 5 ;;
         g <- global_f bits policy l' ;;
         int_arith bits policy Add l g).
Proof.
  unfold main. rewrite main_body_chain. split; [reflexivity|].
  destruct (local_f bits policy 5) as [l e1|]; cbn [bind]; [|reflexivity].
  destruct (global_f bits policy l) as [g e2|]; cbn [bind]; [|reflexivity].
  unfold int_arith. cbn [exact]. rewrite (Z.add_comm l g).
  destruct (in_range bits (g + l)); [reflexivity|].
  destruct policy; reflexivity.
Qed.

(** C5. For the input 5, [local_f] returns 15. *)
Theorem local_f_of_5 (bits : Z) (policy : overflow) (Hbits : 16 <= bits) :
  local_f bits policy 5 = Returns 15 [Arith Mul 5 3].
Proof. now apply local_f_5. Qed.

Lemma local_f_of_5_witness :
  16 <= 32 /\ local_f 32 Undefined 5 = Returns 15 [Arith Mul 5 3].
Proof. split; [lia | apply (local_f_of_5 32 Undefined); lia]. Defined.

(** C6. For the input 15, [global_f] returns 90. *)
Theorem global_f_of_15 (bits : Z) (policy : overflow) (Hbits : 16 <= bits) :
  global_f bits policy 15 = Returns 90 [Arith Mul 15 6].
Proof. now apply global_f_15. Qed.

Lemma global_f_of_15_witness :
  16 <= 32 /\ global_f 32 Undefined 15 = Returns 90 [Arith Mul 15 6].
Proof. split; [lia | apply (global_f_of_15 32 Undefined); lia]. Defined.

(** C7. The run of [main] never overflows: it is not undefined, the signed
    operations it evaluates are exactly 5*3, 15*6 and 90+15, each of them
    stays within [int], and so the treatment of overflow is never
    consulted: [main] runs the same whether overflow is undefined or
    wraps. *)
Theorem main_never_overflows (bits : Z) (policy : overflow)
  (Hbits : 16 <= bits) :
  main bits policy <> UB /\
  events (main bits policy) =
    [Arith Mul 5 3; Arith Mul 15 6; Arith Add 90 15] /\
  forallb (no_overflow bits) (events (main bits policy)) = true /\
  main bits Undefined = main bits Wraps.
Proof.
  unfold main. rewrite !main_body_runs by assumption.
  cbn [events forallb]. unfold no_overflow. cbn [exact_of exact].
  rewrite (in_range_int16 bits Hbits (5 * 3)) by lia.
  rewrite (in_range_int16 bits Hbits (15 * 6)) by lia.
  rewrite (in_range_int16 bits Hbits (90 + 15)) by lia.
  repeat split; discriminate.
Qed.

Lemma main_never_overflows_witness :
  16 <= 16 /\
  (main 16 Undefined <> UB /\
   events (main 16 Undefined) =
     [Arith Mul 5 3; Arith Mul 15 6; Arith Add 90 15] /\
   forallb (no_overflow 16) (events (main 16 Undefined)) = true /\
   main 16 Undefined = main 16 Wraps).
Proof. split; [lia | apply (main_never_overflows 16 Undefined); lia]. Defined.

(** C8. The program is deterministic.  [local_f] and [global_f] are
    functions of their argument alone: on equal arguments they give equal
    outcomes.  Two runs of [main] give the same outcome: whatever the
    frame holds when [main] is entered, and also across implementations
    (width of [int] at least 16, either treatment of overflow). *)
Theorem program_deterministic
  (bits bits' : Z) (policy policy' : overflow) (fr fr' : frame) (x y : Z)
  (Hbits : 16 <= bits) (Hbits' : 16 <= bits') (Hxy : x = y) :
  local_f bits policy x = local_f bits policy y /\
  global_f bits policy x = global_f bits policy y /\
  main_body bits policy fr = main_body bits policy fr' /\
  main bits policy = main bits' policy'.
Proof.
  subst y. unfold main.
  rewrite !main_body_runs by assumption.
  repeat split.
Qed.

Lemma program_deterministic_witness :
  16 <= 32 /\ 16 <= 64 /\ 4 = 2 + 2 /\
  (local_f 32 Undefined 4 = local_f 32 Undefined (2 + 2) /\
   global_f 32 Undefined 4 = global_f 32 Undefined (2 + 2) /\
   main_body 32 Undefined {| a := Some 1; b := None |} =
   main_body 32 Undefined {| a := None; b := Some 2 |} /\
   main 32 Undefined = main 64 Wraps).
Proof.
  split; [lia|]. split; [lia|]. split; [reflexivity|].
  apply (program_deterministic 32 64 Undefined Wraps
           {| a := Some 1; b := None |} {| a := None; b := Some 2 |}
           4 (2 + 2)); [lia | lia | reflexivity].
Defined.

(** C9. The assignment [b = 7;] is a dead store: [b] is overwritten by
    [local_f(a)] before it is read, so [main] with any other constant in
    that statement has the same outcome as [main]. *)
Theorem initial_b_is_dead (bits : Z) (policy : overflow) (b0 : Z) (fr : frame) :
  main_init_b bits policy b0 fr = main_body bits policy fr.
Proof. reflexivity. Qed.

(** C10. [global_f x] is [2 * local_f(x)]: for every [x], the value of
    [global_f x] is the value of the C expression [2 * local_f(x)], both
    when overflow is undefined (one is undefined exactly when the other
    is) and when it wraps; and when [6 * x] does not overflow, the value of
    [global_f x] is twice the value of [local_f x] as integers. *)
Theorem global_f_doubles_local_f (bits : Z) (policy : overflow) (x : Z)
  (Hbits : 16 <= bits) :
  value (global_f bits policy x) =
  value (l <- local_f bits policy x ;; int_arith bits policy Mul 2 l)
  /\
  (in_range bits (6 * x) = true ->
   exists l, value (local_f bits policy x) = Some l /\
             value (global_f bits policy x) = Some (2 * l)).
Proof.
  split.
  - unfold global_f, local_f. destruct policy.
    + destruct (in_range bits (x * 6)) eqn:H6.
      * assert (H3 : in_range bits (x * 3) = true).
        { apply in_range_half; [assumption|].
          now replace (2 * (x * 3)) with (x * 6) by lia. }
        rewrite (int_arith_fits bits Undefined Mul x 6) by assumption.
        rewrite (int_arith_fits bits Undefined Mul x 3) by assumption.
        cbn [bind exact].
        rewrite (int_arith_fits bits Undefined Mul 2 (x * 3))
          by (cbn [exact]; now replace (2 * (x * 3)) with (x * 6) by lia).
        cbn [value exact]. f_equal. lia.
      * destruct (int_arith_overflows bits Mul x 6 H6) as [-> _].
        destruct (in_range bits (x * 3)) eqn:H3.
        -- rewrite (int_arith_fits bits Undefined Mul x 3) by assumption.
           cbn [bind exact].
           assert (H2 : in_range bits (exact Mul 2 (x * 3)) = false)
             by (cbn [exact]; now replace (2 * (x * 3)) with (x * 6) by lia).
           destruct (int_arith_overflows bits Mul 2 (x * 3) H2) as [-> _].
           reflexivity.
        -- destruct (int_arith_overflows bits Mul x 3 H3) as [-> _].
           reflexivity.
    + rewrite !int_arith_wraps by assumption. cbn [bind].
      rewrite int_arith_wraps by assumption.
      cbn [value exact]. f_equal.
      rewrite wrap_mul_l by assumption. f_equal. lia.
  - intros H6. exists (3 * x).
    assert (H3 : in_range bits (3 * x) = true).
    { apply in_range_half; [assumption|].
      now replace (2 * (3 * x)) with (6 * x) by lia. }
    unfold global_f, local_f.
    rewrite (int_arith_fits bits policy Mul x 6)
      by (cbn [exact]; now rewrite Z.mul_comm).
    rewrite (int_arith_fits bits policy Mul x 3)
      by (cbn [exact]; now rewrite Z.mul_comm).
    cbn [value exact]. split; f_equal; lia.
Qed.

Lemma global_f_doubles_local_f_witness :
  16 <= 32 /\
  value (global_f 32 Wraps 715827883) =
  value (l <- local_f 32 Wraps 715827883 ;; int_arith 32 Wraps Mul 2 l) /\
  (in_range 32 (6 * 11) = true ->
   exists l, value (local_f 32 Undefined 11) = Some l /\
             value (global_f 32 Undefined 11) = Some (2 * l)).
Proof.
  split; [lia|]. split.
  - apply (global_f_doubles_local_f 32 Wraps 715827883); lia.
  - apply (global_f_doubles_local_f 32 Undefined 11); lia.
Defined.

(** ** Further properties of [local_f] and [global_f] *)

(** When overflow is undefined, an operation is defined exactly when its
    mathematical value fits. *)
Lemma int_arith_defined_iff (bits : Z) (op : binop) (x y : Z) :
  int_arith bits Undefined op x y <> UB <->
  in_range bits (exact op x y) = true.
Proof.
  unfold int_arith.
  destruct (in_range bits (exact op x y)); split;
    intros H; try reflexivity; try discriminate; now elim H.
Qed.

Lemma value_int_arith_wraps (bits : Z) (op : binop) (x y : Z) :
  16 <= bits ->
  value (int_arith bits Wraps op x y) = Some (wrap bits (exact op x y)).
Proof. intros Hb. now rewrite int_arith_wraps. Qed.

Lemma value_int_arith_undefined (bits : Z) (op : binop) (x y : Z) :
  value (int_arith bits Undefined op x y) =
  if in_range bits (exact op x y) then Some (exact op x y) else None.
Proof. unfold int_arith. now destruct (in_range bits (exact op x y)). Qed.

(** No power of two is a multiple of three. *)
Lemma pow2_mod3 (k : Z) : 0 <= k -> 2 ^ k mod 3 = 1 \/ 2 ^ k mod 3 = 2.
Proof.
  revert k. apply natlike_ind.
  - left. reflexivity.
  - intros k Hk IH. rewrite Z.pow_succ_r by assumption.
    rewrite <- Z.mul_mod_idemp_r by lia.
    destruct IH as [-> | ->]; [right | left]; reflexivity.
Qed.

Lemma pow2_not_triple (k z : Z) : 0 <= k -> 2 ^ k <> 3 * z.
Proof.
  intros Hk Heq. pose proof (pow2_mod3 k Hk) as Hm.
  rewrite Heq, Z.mul_comm, Z.mod_mul in Hm by lia. lia.
Qed.

Lemma gcd_pow2_3 (k : Z) : 0 <= k -> Z.gcd (2 ^ k) 3 = 1.
Proof.
  intros Hk.
  pose proof (Z.gcd_nonneg (2 ^ k) 3) as Hn.
  pose proof (Z.gcd_divide_l (2 ^ k) 3) as [c Hc].
  pose proof (Z.gcd_divide_r (2 ^ k) 3) as [d Hd].
  assert (Hle : Z.gcd (2 ^ k) 3 <= 3)
    by (apply Z.divide_pos_le; [lia | now exists d]).
  assert (Hg : Z.gcd (2 ^ k) 3 = 0 \/ Z.gcd (2 ^ k) 3 = 1 \/
               Z.gcd (2 ^ k) 3 = 2 \/ Z.gcd (2 ^ k) 3 = 3) by lia.
  destruct Hg as [Hg | [Hg | [Hg | Hg]]]; rewrite Hg in *; try lia.
  exfalso. apply (pow2_not_triple k c Hk). lia.
Qed.

(** A multiple of [2 ^ bits] strictly between [- 2 ^ bits] and [2 ^ bits]
    is zero. *)
Lemma small_multiple_zero (m d : Z) :
  0 < m -> (m | d) -> - m < d < m -> d = 0.
Proof.
  intros Hm [q ->] Hd.
  assert (Hq : q <= -1 \/ q = 0 \/ 1 <= q) by lia.
  destruct Hq as [Hq | [-> | Hq]]; [exfalso | reflexivity | exfalso].
  - assert (q * m <= -1 * m) by (apply Z.mul_le_mono_nonneg_r; lia). lia.
  - assert (1 * m <= q * m) by (apply Z.mul_le_mono_nonneg_r; lia). lia.
Qed.

(** X1. With overflow undefined, [local_f x] is defined exactly for the
    [x] between [- (2 ^ (bits - 1) / 3)] and [(2 ^ (bits - 1) - 1) / 3]
    (for a 32-bit [int]: from -715827882 to 715827882); outside of them it
    is undefined behaviour. *)
Theorem local_f_defined_iff (bits : Z) (x : Z) :
  local_f bits Undefined x <> UB <->
  - (2 ^ (bits - 1) / 3) <= x <= (2 ^ (bits - 1) - 1) / 3.
Proof.
  unfold local_f. rewrite int_arith_defined_iff, in_range_bounds.
  cbn [exact]. Z.to_euclidean_division_equations. lia.
Qed.

Lemma local_f_defined_iff_witness :
  local_f 32 Undefined 715827882 <> UB /\
  local_f 32 Undefined (-715827882) <> UB /\
  ~ local_f 32 Undefined 715827883 <> UB /\
  ~ local_f 32 Undefined (-715827883) <> UB.
Proof.
  repeat split; rewrite (local_f_defined_iff 32); cbv; intuition congruence.
Defined.

(** X2. With overflow undefined, [global_f x] is defined exactly for the
    [x] between [- (2 ^ (bits - 1) / 6)] and [(2 ^ (bits - 1) - 1) / 6]
    (for a 32-bit [int]: from -357913941 to 357913941); outside of them it
    is undefined behaviour. *)
Theorem global_f_defined_iff (bits : Z) (x : Z) :
  global_f bits Undefined x <> UB <->
  - (2 ^ (bits - 1) / 6) <= x <= (2 ^ (bits - 1) - 1) / 6.
Proof.
  unfold global_f. rewrite int_arith_defined_iff, in_range_bounds.
  cbn [exact]. Z.to_euclidean_division_equations. lia.
Qed.

Lemma global_f_defined_iff_witness :
  global_f 32 Undefined 357913941 <> UB /\
  global_f 32 Undefined (-357913941) <> UB /\
  ~ global_f 32 Undefined 357913942 <> UB /\
  ~ global_f 32 Undefined (-357913942) <> UB.
Proof.
  repeat split; rewrite (global_f_defined_iff 32); cbv; intuition congruence.
Defined.

(** X3. With overflow undefined, every argument on which [global_f] is
    defined is one on which [local_f] is defined, and not the other way
    round: on [2 ^ (bits - 3)], [local_f] is defined and [global_f] is
    not. *)
Theorem global_f_domain_within_local_f (bits : Z) (Hbits : 16 <= bits) :
  (forall x, global_f bits Undefined x <> UB -> local_f bits Undefined x <> UB)
  /\ local_f bits Undefined (2 ^ (bits - 3)) <> UB
  /\ global_f bits Undefined (2 ^ (bits - 3)) = UB.
Proof.
  assert (Hq : 2 ^ (bits - 1) = 4 * 2 ^ (bits - 3)).
  { replace (bits - 1) with (2 + (bits - 3)) by lia.
    rewrite Z.pow_add_r by lia. reflexivity. }
  assert (Hp : 0 < 2 ^ (bits - 3)) by (apply Z.pow_pos_nonneg; lia).
  unfold global_f, local_f. repeat split.
  - intros x. rewrite !int_arith_defined_iff, !in_range_bounds.
    cbn [exact]. lia.
  - rewrite int_arith_defined_iff, in_range_bounds. cbn [exact]. lia.
  - apply int_arith_overflows.
    destruct (in_range bits (exact Mul (2 ^ (bits - 3)) 6)) eqn:Hr;
      [|reflexivity].
    apply in_range_bounds in Hr. cbn [exact] in Hr. lia.
Qed.

Lemma global_f_domain_within_local_f_witness :
  16 <= 32 /\
  (global_f 32 Undefined 357913941 <> UB ->
   local_f 32 Undefined 357913941 <> UB) /\
  local_f 32 Undefined (2 ^ (32 - 3)) <> UB /\
  global_f 32 Undefined (2 ^ (32 - 3)) = UB.
Proof.
  split; [lia|].
  destruct (global_f_domain_within_local_f 32) as (Hsub & Hl & Hg); [lia|].
  split; [apply Hsub | split; [exact Hl | exact Hg]].
Defined.

(** X4. When overflow wraps, [local_f] and [global_f] always return: the
    result is an [int], and it differs from [3 * x] (from [6 * x]) by a
    multiple of [2 ^ bits]. *)
Theorem wrapping_results_congruent (bits : Z) (x : Z) (Hbits : 16 <= bits) :
  exists v w,
    local_f bits Wraps x = Returns v [Arith Mul x 3] /\
    in_range bits v = true /\ (2 ^ bits | v - 3 * x) /\
    global_f bits Wraps x = Returns w [Arith Mul x 6] /\
    in_range bits w = true /\ (2 ^ bits | w - 6 * x).
Proof.
  exists (wrap bits (x * 3)), (wrap bits (x * 6)).
  unfold local_f, global_f. rewrite !int_arith_wraps by assumption.
  cbn [exact]. rewrite !wrap_in_range by assumption.
  destruct (wrap_congruent bits Hbits (x * 3)) as [q ->].
  destruct (wrap_congruent bits Hbits (x * 6)) as [q' ->].
  repeat split; [exists q | exists q']; lia.
Qed.

Lemma wrapping_results_congruent_witness :
  16 <= 32 /\
  exists v w,
    local_f 32 Wraps 715827883 = Returns v [Arith Mul 715827883 3] /\
    in_range 32 v = true /\ (2 ^ 32 | v - 3 * 715827883) /\
    global_f 32 Wraps 715827883 = Returns w [Arith Mul 715827883 6] /\
    in_range 32 w = true /\ (2 ^ 32 | w - 6 * 715827883).
Proof.
  split; [lia | apply (wrapping_results_congruent 32 715827883); lia].
Defined.

(** X5. With overflow undefined, negating the argument negates the result
    of [local_f] and of [global_f], and [f (- x)] is undefined exactly
    when [f x] is: the most negative [int] is a multiple of neither 3 nor
    6, so the asymmetry of the range is never met. *)
Theorem negation_symmetric (bits : Z) (x : Z) (Hbits : 16 <= bits) :
  value (local_f bits Undefined (- x)) =
    option_map Z.opp (value (local_f bits Undefined x)) /\
  value (global_f bits Undefined (- x)) =
    option_map Z.opp (value (global_f bits Undefined x)).
Proof.
  assert (H3 : 2 ^ (bits - 1) <> 3 * (- x))
    by (apply pow2_not_triple; lia).
  assert (H3' : 2 ^ (bits - 1) <> 3 * x)
    by (apply pow2_not_triple; lia).
  assert (H6 : 2 ^ (bits - 1) <> 3 * (- (2 * x)))
    by (apply pow2_not_triple; lia).
  assert (H6' : 2 ^ (bits - 1) <> 3 * (2 * x))
    by (apply pow2_not_triple; lia).
  unfold local_f, global_f. rewrite !value_int_arith_undefined.
  cbn [exact].
  split.
  - destruct (in_range bits (- x * 3)) eqn:Hn,
             (in_range bits (x * 3)) eqn:Hp; cbn [option_map];
      try (f_equal; lia); exfalso.
    + apply in_range_bounds in Hn.
      apply not_true_iff_false in Hp. apply Hp, in_range_bounds. lia.
    + apply in_range_bounds in Hp.
      apply not_true_iff_false in Hn. apply Hn, in_range_bounds. lia.
  - destruct (in_range bits (- x * 6)) eqn:Hn,
             (in_range bits (x * 6)) eqn:Hp; cbn [option_map];
      try (f_equal; lia); exfalso.
    + apply in_range_bounds in Hn.
      apply not_true_iff_false in Hp. apply Hp, in_range_bounds. lia.
    + apply in_range_bounds in Hp.
      apply not_true_iff_false in Hn. apply Hn, in_range_bounds. lia.
Qed.

Lemma negation_symmetric_witness :
  16 <= 32 /\
  value (local_f 32 Undefined (- 715827882)) =
    option_map Z.opp (value (local_f 32 Undefined 715827882)) /\
  value (global_f 32 Undefined (- 715827882)) =
    option_map Z.opp (value (global_f 32 Undefined 715827882)).
Proof.
  split; [lia | apply (negation_symmetric 32 715827882); lia].
Defined.

(** X6. When overflow wraps, [local_f] is injective on [int]: two
    arguments of type [int] with the same result are equal (3 is
    invertible modulo [2 ^ bits]). *)
Theorem local_f_wraps_injective (bits : Z) (x y : Z) (Hbits : 16 <= bits)
  (Hx : in_range bits x = true) (Hy : in_range bits y = true)
  (Heq : value (local_f bits Wraps x) = value (local_f bits Wraps y)) :
  x = y.
Proof.
  unfold local_f in Heq.
  rewrite !value_int_arith_wraps in Heq by assumption.
  cbn [exact] in Heq. injection Heq as Heq.
  destruct (wrap_congruent bits Hbits (x * 3)) as [q Hq].
  destruct (wrap_congruent bits Hbits (y * 3)) as [q' Hq'].
  assert (Hdiv : (2 ^ bits | 3 * (x - y))) by (exists (q' - q); lia).
  apply Z.gauss in Hdiv; [|apply gcd_pow2_3; lia].
  apply in_range_bounds in Hx, Hy.
  pose proof (pow_bits_double bits Hbits) as Hd.
  pose proof (half_range_large bits Hbits) as Hh.
  assert (x - y = 0); [|lia].
  apply (small_multiple_zero (2 ^ bits)); [lia | assumption | lia].
Qed.

Lemma local_f_wraps_injective_witness :
  16 <= 32 /\ in_range 32 (3 + 4) = true /\ in_range 32 7 = true /\
  value (local_f 32 Wraps (3 + 4)) = value (local_f 32 Wraps 7) /\
  3 + 4 = 7.
Proof.
  split; [lia|]. split; [reflexivity|]. split; [reflexivity|].
  split; [reflexivity|].
  apply (local_f_wraps_injective 32 (3 + 4) 7); [lia | reflexivity ..].
Defined.

(** X7. When overflow wraps, [global_f] is not injective on [int]: adding
    [2 ^ (bits - 1)] to the argument does not change the result, and the
    most negative [int] and 0 both give 0. *)
Theorem global_f_wraps_collides (bits : Z) (x : Z) (Hbits : 16 <= bits) :
  value (global_f bits Wraps (x + 2 ^ (bits - 1))) =
    value (global_f bits Wraps x) /\
  in_range bits (INT_MIN bits) = true /\ INT_MIN bits <> 0 /\
  value (global_f bits Wraps (INT_MIN bits)) = Some 0 /\
  value (global_f bits Wraps 0) = Some 0.
Proof.
  pose proof (pow_bits_double bits Hbits) as Hd.
  pose proof (half_range_large bits Hbits) as Hh.
  unfold global_f. rewrite !value_int_arith_wraps by assumption.
  cbn [exact]. split; [|split; [|split; [|split]]].
  - f_equal.
    replace ((x + 2 ^ (bits - 1)) * 6) with (x * 6 + 3 * 2 ^ bits) by lia.
    now apply wrap_shift.
  - apply in_range_bounds. unfold INT_MIN. lia.
  - unfold INT_MIN. lia.
  - f_equal. unfold INT_MIN at 1.
    replace (- 2 ^ (bits - 1) * 6) with (0 + (-3) * 2 ^ bits) by lia.
    rewrite wrap_shift by assumption.
    apply wrap_id; [assumption|]. apply in_range_int16; lia.
  - f_equal. apply wrap_id; [assumption|]. apply in_range_int16; lia.
Qed.

Lemma global_f_wraps_collides_witness :
  16 <= 32 /\
  value (global_f 32 Wraps (5 + 2 ^ (32 - 1))) = value (global_f 32 Wraps 5) /\
  in_range 32 (INT_MIN 32) = true /\ INT_MIN 32 <> 0 /\
  value (global_f 32 Wraps (INT_MIN 32)) = Some 0 /\
  value (global_f 32 Wraps 0) = Some 0.
Proof.
  split; [lia | apply (global_f_wraps_collides 32 5); lia].
Defined.

(** X8. [global_f] never returns an odd number, whether overflow is
    undefined or wraps. *)
Theorem global_f_result_even (bits : Z) (policy : overflow) (x v : Z)
  (Hbits : 16 <= bits)
  (Hv : value (global_f bits policy x) = Some v) :
  Z.even v = true.
Proof.
  unfold global_f in Hv. destruct policy.
  - rewrite value_int_arith_undefined in Hv. cbn [exact] in Hv.
    destruct (in_range bits (x * 6)); [|discriminate].
    injection Hv as <-.
    replace (x * 6) with (0 + 2 * (x * 3)) by lia.
    now rewrite Z.even_add_mul_2.
  - rewrite value_int_arith_wraps in Hv by assumption. cbn [exact] in Hv.
    injection Hv as <-.
    destruct (wrap_congruent bits Hbits (x * 6)) as [q ->].
    rewrite (pow_bits_double bits Hbits).
    replace (x * 6 + q * (2 * 2 ^ (bits - 1)))
      with (0 + 2 * (x * 3 + q * 2 ^ (bits - 1))) by lia.
    now rewrite Z.even_add_mul_2.
Qed.

Lemma global_f_result_even_witness :
  16 <= 32 /\
  value (global_f 32 Wraps 715827883) = Some 2 /\
  Z.even 2 = true.
Proof.
  split; [lia|]. split; [reflexivity|].
  apply (global_f_result_even 32 Wraps 715827883 2); [lia | reflexivity].
Defined.

(** X9. The two functions commute: for every [x], [global_f(local_f(x))]
    and [local_f(global_f(x))] have the same value under either treatment
    of overflow (with overflow undefined, one is undefined exactly when
    the other is), and that value is [18 * x] whenever [18 * x] fits. *)
Theorem calls_commute (bits : Z) (policy : overflow) (x : Z)
  (Hbits : 16 <= bits) :
  value (l <- local_f bits policy x ;; global_f bits policy l) =
  value (g <- global_f bits policy x ;; local_f bits policy g)
  /\
  (in_range bits (18 * x) = true ->
   value (l <- local_f bits policy x ;; global_f bits policy l) =
   Some (18 * x)).
Proof.
  pose proof (half_range_large bits Hbits) as Hh.
  unfold local_f, global_f. split.
  - rewrite !value_bind. destruct policy.
    + rewrite !value_int_arith_undefined. cbn [exact].
      destruct (in_range bits (x * 3)) eqn:H3,
               (in_range bits (x * 6)) eqn:H6;
        rewrite ?value_int_arith_undefined; cbn [exact];
        try reflexivity.
      * replace (x * 6 * 3) with (x * 3 * 6) by lia. reflexivity.
      * destruct (in_range bits (x * 3 * 6)) eqn:H18; [|reflexivity].
        exfalso. apply in_range_bounds in H18.
        apply not_true_iff_false in H6. apply H6, in_range_bounds. lia.
      * destruct (in_range bits (x * 6 * 3)) eqn:H18; [|reflexivity].
        exfalso. apply in_range_bounds in H18.
        apply not_true_iff_false in H3. apply H3, in_range_bounds. lia.
    + rewrite !value_int_arith_wraps by assumption. cbn [exact].
      f_equal.
      rewrite (Z.mul_comm (wrap bits (x * 3)) 6).
      rewrite (Z.mul_comm (wrap bits (x * 6)) 3).
      rewrite !wrap_mul_l by assumption. f_equal. lia.
  - intros H18. pose proof H18 as Hb. apply in_range_bounds in Hb.
    assert (H3 : in_range bits (exact Mul x 3) = true)
      by (apply in_range_bounds; cbn [exact]; lia).
    rewrite (int_arith_fits bits policy Mul x 3 H3). cbn [bind exact].
    rewrite (int_arith_fits bits policy Mul (x * 3) 6)
      by (cbn [exact]; now replace (x * 3 * 6) with (18 * x) by lia).
    cbn [value exact]. f_equal. lia.
Qed.

Lemma calls_commute_witness :
  16 <= 32 /\
  value (l <- local_f 32 Wraps 715827883 ;; global_f 32 Wraps l) =
  value (g <- global_f 32 Wraps 715827883 ;; local_f 32 Wraps g) /\
  (in_range 32 (18 * 119304647) = true ->
   value (l <- local_f 32 Undefined 119304647 ;; global_f 32 Undefined l) =
   Some (18 * 119304647)).
Proof.
  split; [lia|]. split.
  - apply (calls_commute 32 Wraps 715827883); lia.
  - apply (calls_commute 32 Undefined 119304647); lia.
Defined.
